(** * expo-updates: the [useUpdates] hooks

    A shallow embedding of [packages/expo-updates/src/UpdatesHooks.ts]
    (the hooks [useUpdateEvents] and [useNativeStateMachineContext]) and of
    the [useUpdates] module that accompanies it (the four dispatchers and the
    [useUpdates] hook), together with the properties the specification
    states about them.

    JavaScript objects are records, [undefined] is [None], object identity
    (what [Object.is] compares) is an explicit address, the wall clock is an
    explicit argument, and a promise is represented by the way it eventually
    settles. *)

From Stdlib Require Import String ZArith List Bool Lia.
Import ListNotations.
Open Scope Z_scope.

Set Implicit Arguments.

(** ** Data model *)

(** The error value [{name, code, message}] shared by check, download and
    log-read failures. *)
Module UpdatesError.
Record t := { name : string; code : string; message : string }.
End UpdatesError.

(** A JavaScript [Date]: an instant in milliseconds since the epoch, or the
    invalid date that [new Date(s)] yields for an unparsable string. *)
Inductive Date :=
| Instant (ms : Z)
| InvalidDate.

Module Asset.
Record t := { url : string }.
End Asset.

Module Manifest.
Record t := {
  id : string;
  createdAt : string;
  runtimeVersion : string;
  launchAsset : Asset.t;
  assets : list Asset.t;
  metadata : list (string * string)
}.
End Manifest.

(** [UpdatesNativeStateMachineContext]: the snapshot owned by the native
    module.  The field list is the object literal of
    [useNativeStateMachineContext]. *)
Module Context.
Record t := {
  isUpdateAvailable : bool;
  isUpdatePending : bool;
  isRollback : bool;
  isChecking : bool;
  isDownloading : bool;
  isRestarting : bool;
  checkError : option UpdatesError.t;
  downloadError : option UpdatesError.t;
  latestManifest : option Manifest.t;
  downloadedManifest : option Manifest.t
}.
End Context.

(** The derived description of an update: [{ updateId, createdAt, manifest }]. *)
Module UpdateInfo.
Record t := { updateId : string; createdAt : Date; manifest : Manifest.t }.
End UpdateInfo.

(** Modelled from the spec: the log entry type is declared in
    [Updates.types], which is not among the sources.  Only the identity and
    the order of the entries matter below. *)
Module UpdatesLogEntry.
Record t := { timestamp : Z; message : string }.
End UpdatesLogEntry.

(** [UseUpdatesState], the public state. *)
Module State.
Record t := {
  availableUpdate : option UpdateInfo.t;
  downloadedUpdate : option UpdateInfo.t;
  isUpdateAvailable : bool;
  isUpdatePending : bool;
  isChecking : bool;
  isDownloading : bool;
  lastCheckForUpdateTimeAsync : option Date;
  error : option UpdatesError.t;
  logEntries : option (list UpdatesLogEntry.t)
}.
End State.

(** Modelled from the spec: [defaultUseUpdatesState] is defined in
    [UseUpdatesUtils], which is not among the sources; the specification
    describes it as the all-false, all-undefined value. *)
Definition defaultUseUpdatesState : State.t :=
  {| State.availableUpdate := None;
     State.downloadedUpdate := None;
     State.isUpdateAvailable := false;
     State.isUpdatePending := false;
     State.isChecking := false;
     State.isDownloading := false;
     State.lastCheckForUpdateTimeAsync := None;
     State.error := None;
     State.logEntries := None |}.

(** The object literal that [useNativeStateMachineContext] passes to
    [useState]. *)
Definition defaultContext : Context.t :=
  {| Context.isUpdateAvailable := false;
     Context.isUpdatePending := false;
     Context.isRollback := false;
     Context.isChecking := false;
     Context.isDownloading := false;
     Context.isRestarting := false;
     Context.checkError := None;
     Context.downloadError := None;
     Context.latestManifest := None;
     Context.downloadedManifest := None |}.

(** ** The state reducer *)

Section Reducer.

(** [new Date(s)] on a manifest's [createdAt] string. *)
Variable parseDate : string -> Date.

(** Modelled from the spec: the derived [{ updateId, createdAt, manifest }],
    with [createdAt] the parsed time stamp of the manifest. *)
Definition updateInfoFromManifest (m : Manifest.t) : UpdateInfo.t :=
  {| UpdateInfo.updateId := Manifest.id m;
     UpdateInfo.createdAt := parseDate (Manifest.createdAt m);
     UpdateInfo.manifest := m |}.

(** Modelled from the spec: [availableUpdateFromContext] lives in
    [UseUpdatesUtils], which is not among the sources.  Step 2 of the
    reducer: present iff [latestManifest] is set and [isRollback] is
    false. *)
Definition availableUpdateFromContext (context : Context.t)
  : option UpdateInfo.t :=
  match Context.latestManifest context with
  | Some m =>
      if Context.isRollback context then None
      else Some (updateInfoFromManifest m)
  | None => None
  end.

(** Modelled from the spec: step 3 of the reducer, which derives
    [downloadedUpdate] "analogously" from [downloadedManifest]. *)
Definition downloadedUpdateFromContext (context : Context.t)
  : option UpdateInfo.t :=
  match Context.downloadedManifest context with
  | Some m =>
      if Context.isRollback context then None
      else Some (updateInfoFromManifest m)
  | None => None
  end.

(** Modelled from the spec: step 5 of the reducer, [checkError] if present,
    else [downloadError] if present, else undefined. *)
Definition errorFromContext (context : Context.t) : option UpdatesError.t :=
  match Context.checkError context with
  | Some e => Some e
  | None =>
      match Context.downloadError context with
      | Some e => Some e
      | None => None
      end
  end.

(** Modelled from the spec: step 1 of the reducer.  The time stamp is
    written when a context without [isChecking] arrives while the previous
    one had it; the state keeps the [isChecking] of the previous context. *)
Definition leavesChecking (previous : State.t) (context : Context.t) : bool :=
  negb (Context.isChecking context) && State.isChecking previous.

(** Modelled from the spec: [reduceUpdatesStateFromContext] lives in
    [UseUpdatesUtils], which is not among the sources.  The definition
    follows the five steps of the specification's algorithm; [now] is the
    reading of the clock that step 1 stamps, and [logEntries], which no
    step mentions, is carried over. *)
Definition reduceUpdatesStateFromContext
    (now : Z) (previous : State.t) (context : Context.t) : State.t :=
  {| State.availableUpdate := availableUpdateFromContext context;
     State.downloadedUpdate := downloadedUpdateFromContext context;
     State.isUpdateAvailable := Context.isUpdateAvailable context;
     State.isUpdatePending := Context.isUpdatePending context;
     State.isChecking := Context.isChecking context;
     State.isDownloading := Context.isDownloading context;
     State.lastCheckForUpdateTimeAsync :=
       if leavesChecking previous context then Some (Instant now)
       else State.lastCheckForUpdateTimeAsync previous;
     State.error := errorFromContext context;
     State.logEntries := State.logEntries previous |}.

End Reducer.

(** ** Internal completion notifications *)

(** Modelled from the spec: the enumeration [UseUpdatesInternalEventType] is
    declared in [UseUpdates.types], which is not among the sources.  The
    sources name two members; [OtherEventType] stands for any other tag that
    reaches the [default] branch of the handler. *)
Inductive UseUpdatesInternalEventType :=
| READ_LOG_ENTRIES_COMPLETE
| ERROR
| OtherEventType (tag : string).

Module UseUpdatesEvent.
Record t := {
  type : UseUpdatesInternalEventType;
  error : option UpdatesError.t;
  logEntries : option (list UpdatesLogEntry.t)
}.
End UseUpdatesEvent.

(** [{ ...updatesState, error }] *)
Definition withError (updatesState : State.t) (error : option UpdatesError.t)
  : State.t :=
  {| State.availableUpdate := State.availableUpdate updatesState;
     State.downloadedUpdate := State.downloadedUpdate updatesState;
     State.isUpdateAvailable := State.isUpdateAvailable updatesState;
     State.isUpdatePending := State.isUpdatePending updatesState;
     State.isChecking := State.isChecking updatesState;
     State.isDownloading := State.isDownloading updatesState;
     State.lastCheckForUpdateTimeAsync :=
       State.lastCheckForUpdateTimeAsync updatesState;
     State.error := error;
     State.logEntries := State.logEntries updatesState |}.

(** [{ ...updatesState, logEntries }] *)
Definition withLogEntries (updatesState : State.t)
    (logEntries : option (list UpdatesLogEntry.t)) : State.t :=
  {| State.availableUpdate := State.availableUpdate updatesState;
     State.downloadedUpdate := State.downloadedUpdate updatesState;
     State.isUpdateAvailable := State.isUpdateAvailable updatesState;
     State.isUpdatePending := State.isUpdatePending updatesState;
     State.isChecking := State.isChecking updatesState;
     State.isDownloading := State.isDownloading updatesState;
     State.lastCheckForUpdateTimeAsync :=
       State.lastCheckForUpdateTimeAsync updatesState;
     State.error := State.error updatesState;
     State.logEntries := logEntries |}.

(** The listener that [useUpdates] hands to [useUpdatesInternalEvents]: the
    state update that one notification causes.  In the [default] branch
    [setUpdatesState] is not called at all. *)
Definition onInternalEvent (event : UseUpdatesEvent.t)
    (updatesState : State.t) : State.t :=
  match UseUpdatesEvent.type event with
  | ERROR => withError updatesState (UseUpdatesEvent.error event)
  | READ_LOG_ENTRIES_COMPLETE =>
      withLogEntries updatesState (UseUpdatesEvent.logEntries event)
  | OtherEventType _ => updatesState
  end.

(** ** Effects: the native module, the event bus and promises *)

(** Calls into the native module, as [Updates.*Async].  The module
    [Updates] is not among the sources; what the hooks and dispatchers do
    with it is recorded as the sequence of their calls. *)
Inductive NativeCall :=
| CheckForUpdateAsync
| FetchUpdateAsync
| ReloadAsync
| ReadLogEntriesAsync (maxAge : Z)
| GetNativeStateMachineContextAsync.

(** What the dispatchers can observe and change: the calls made into the
    native module and the notifications published on the bus, both oldest
    first. *)
Record World := {
  nativeCalls : list NativeCall;
  published : list UseUpdatesEvent.t
}.

(** How a JavaScript call ends. *)
Inductive Completion (A : Type) :=
| Normal (a : A)
| Throw (e : UpdatesError.t).
Arguments Normal {A} a.
Arguments Throw {A} e.

(** A synchronous effectful computation.  The world is kept when the
    computation throws: what was done before the throw stays done. *)
Definition Eff (A : Type) : Type := World -> Completion A * World.

Definition ret {A} (a : A) : Eff A := fun w => (Normal a, w).

Definition bind {A B} (m : Eff A) (k : A -> Eff B) : Eff B :=
  fun w =>
    match m w with
    | (Normal a, w') => k a w'
    | (Throw e, w') => (Throw e, w')
    end.

Declare Scope eff_scope.
Delimit Scope eff_scope with eff.
Notation "x <- m ;; k" := (bind m (fun x => k))
  (at level 61, m at next level, right associativity) : eff_scope.
Notation "m ;; k" := (bind m (fun _ => k))
  (at level 61, right associativity) : eff_scope.

Definition callNative (c : NativeCall) : Eff unit :=
  fun w =>
    (Normal tt,
     {| nativeCalls := nativeCalls w ++ [c]; published := published w |}).

(** How a promise ends: it is fulfilled, rejected, or never settles. *)
Inductive Settlement (A : Type) :=
| Fulfilled (value : A)
| Rejected (reason : UpdatesError.t)
| Pending.
Arguments Fulfilled {A} value.
Arguments Rejected {A} reason.
Arguments Pending {A}.

(** A promise, seen from the job queue: run in the world of the moment its
    source settles, it performs the reactions attached so far and yields its
    own settlement. *)
Definition Promise (A : Type) : Type := World -> Settlement A * World.

Definition settled {A} (s : Settlement A) : Promise A := fun w => (s, w).

(** [p.then(onFulfilled)]: the callback runs only on fulfilment; if it
    throws, the derived promise is rejected with what it threw. *)
Definition promise_then {A B} (p : Promise A) (onFulfilled : A -> Eff B)
  : Promise B :=
  fun w =>
    match p w with
    | (Fulfilled a, w1) =>
        match onFulfilled a w1 with
        | (Normal b, w2) => (Fulfilled b, w2)
        | (Throw e, w2) => (Rejected e, w2)
        end
    | (Rejected e, w1) => (Rejected e, w1)
    | (Pending, w1) => (Pending, w1)
    end.

(** [p.catch(onRejected)]: the callback runs only on rejection, and its
    normal completion fulfils the derived promise. *)
Definition promise_catch {A} (p : Promise A)
    (onRejected : UpdatesError.t -> Eff A) : Promise A :=
  fun w =>
    match p w with
    | (Fulfilled a, w1) => (Fulfilled a, w1)
    | (Rejected e, w1) =>
        match onRejected e w1 with
        | (Normal b, w2) => (Fulfilled b, w2)
        | (Throw e', w2) => (Rejected e', w2)
        end
    | (Pending, w1) => (Pending, w1)
    end.

(** The behaviour of the external native module: how the promise of each
    asynchronous read settles. *)
Record NativeModule := {
  readLogEntriesAsync_settles : Z -> Settlement (list UpdatesLogEntry.t)
}.

(** Modelled from the spec: [Updates.readLogEntriesAsync] lives in
    [Updates], which is not among the sources.  The specification gives it
    as [readLogEntriesAsync(maxAgeMs) -> Promise]: one call into the native
    module, which hands back a promise and does not throw. *)
Definition Updates_readLogEntriesAsync (native : NativeModule) (maxAge : Z)
  : Eff (Promise (list UpdatesLogEntry.t)) :=
  (callNative (ReadLogEntriesAsync maxAge) ;;
   ret (settled (readLogEntriesAsync_settles native maxAge)))%eff.

(** Modelled from the spec: [emitUseUpdatesEvent] lives in [UpdatesEmitter],
    which is not among the sources.  Publishing appends the notification to
    what the bus has carried; a throwing subscriber is isolated, so the
    publisher always completes normally. *)
Definition emitUseUpdatesEvent (event : UseUpdatesEvent.t) : Eff unit :=
  fun w =>
    (Normal tt,
     {| nativeCalls := nativeCalls w; published := published w ++ [event] |}).

(** ** The dispatchers *)

Definition checkForUpdate : Eff unit := callNative CheckForUpdateAsync.

Definition downloadUpdate : Eff unit := callNative FetchUpdateAsync.

Definition runUpdate : Eff unit := callNative ReloadAsync.

(** [readLogEntries] over an arbitrary publishing function.  The JavaScript
    function returns [undefined]; the value returned here is the promise
    chain it leaves behind, which the job queue runs once the read settles. *)
Definition readLogEntries_with (emit : UseUpdatesEvent.t -> Eff unit)
    (native : NativeModule) (maxAge : option Z) : Eff (Promise unit) :=
  let maxAge := match maxAge with Some m => m | None => 3600000 end in
  (p <- Updates_readLogEntriesAsync native maxAge ;;
   ret (promise_catch
          (promise_then p (fun logEntries =>
             emit {| UseUpdatesEvent.type := READ_LOG_ENTRIES_COMPLETE;
                     UseUpdatesEvent.error := None;
                     UseUpdatesEvent.logEntries := Some logEntries |}))
          (fun error =>
             emit {| UseUpdatesEvent.type := ERROR;
                     UseUpdatesEvent.error := Some error;
                     UseUpdatesEvent.logEntries := None |})))%eff.

Definition readLogEntries : NativeModule -> option Z -> Eff (Promise unit) :=
  readLogEntries_with emitUseUpdatesEvent.

(** ** Object identity and the hook primitives *)

(** A JavaScript object on the heap: where it lives and what it holds.
    [Object.is], which [useState] and the dependency arrays of [useEffect]
    use, compares the addresses. *)
Record Obj (A : Type) := { addr : nat; value : A }.

Definition Object_is {A} (x y : Obj A) : bool := Nat.eqb (addr x) (addr y).

(** [useEffect(effect, [dep])]: the effect runs after the first commit and
    after every commit whose dependency is not the previous one. *)
Definition depsChanged {A} (previous : option (Obj A)) (current : Obj A)
  : bool :=
  match previous with
  | None => true
  | Some p => negb (Object_is p current)
  end.

(** ** The hook orchestrator: [useNativeStateMachineContext] and [useUpdates] *)

(** One activation of [useUpdates].  [localState] and [updatesState] are the
    two [useState] cells; [reduced] records, oldest first, the contexts that
    were handed to the reducer; [issued] records the calls made into the
    native module; the two flags tell which subscriptions are live. *)
Record UseUpdates := {
  mounted : bool;
  localState : Obj Context.t;
  updatesState : State.t;
  reduced : list Context.t;
  issued : list NativeCall;
  stateChangeSubscribed : bool;
  internalEventsSubscribed : bool
}.

(** What can happen to a mounted [useUpdates]. *)
Inductive HookEvent :=
| FetchResolved (context : Obj Context.t)
| StateChange (context : Obj Context.t)
| InternalEvent (event : UseUpdatesEvent.t)
| Unmount.

Section Orchestrator.

Variable parseDate : string -> Date.

(** The effect of [useNativeStateMachineContext], run once after the first
    commit: ask the native module for its context and subscribe to its state
    changes with [addUpdatesStateChangeListener]. *)
Definition nativeContextEffect (h : UseUpdates) : UseUpdates :=
  {| mounted := mounted h;
     localState := localState h;
     updatesState := updatesState h;
     reduced := reduced h;
     issued := issued h ++ [GetNativeStateMachineContextAsync];
     stateChangeSubscribed := true;
     internalEventsSubscribed := internalEventsSubscribed h |}.

(** The effect of [useUpdates] with dependency array [[context]]:
    [setUpdatesState((updatesState) =>
       reduceUpdatesStateFromContext(updatesState, context))]. *)
Definition reduceEffect (now : Z) (previousDeps : option (Obj Context.t))
    (h : UseUpdates) : UseUpdates :=
  let context := localState h in
  if depsChanged previousDeps context then
    {| mounted := mounted h;
       localState := localState h;
       updatesState :=
         reduceUpdatesStateFromContext parseDate now (updatesState h)
           (value context);
       reduced := reduced h ++ [value context];
       issued := issued h;
       stateChangeSubscribed := stateChangeSubscribed h;
       internalEventsSubscribed := internalEventsSubscribed h |}
  else h.

(** Modelled from the spec: [useUpdatesInternalEvents] lives in
    [UseUpdatesHooks], which is not among the sources.  It subscribes the
    listener to completion notifications for the activation's lifetime. *)
Definition internalEventsEffect (h : UseUpdates) : UseUpdates :=
  {| mounted := mounted h;
     localState := localState h;
     updatesState := updatesState h;
     reduced := reduced h;
     issued := issued h;
     stateChangeSubscribed := stateChangeSubscribed h;
     internalEventsSubscribed := true |}.

(** First render and the effects that follow it, in hook order.  The object
    literal given to [useState] is allocated at [defaultAddr]. *)
Definition mount (defaultAddr : nat) (now : Z) : UseUpdates :=
  internalEventsEffect
    (reduceEffect now None
       (nativeContextEffect
          {| mounted := true;
             localState := {| addr := defaultAddr; value := defaultContext |};
             updatesState := defaultUseUpdatesState;
             reduced := [];
             issued := [];
             stateChangeSubscribed := false;
             internalEventsSubscribed := false |})).

(** [setLocalState(context)]: nothing happens for the object already held;
    otherwise the hook renders again and the effects whose dependencies
    changed run. *)
Definition setLocalState (now : Z) (context : Obj Context.t)
    (h : UseUpdates) : UseUpdates :=
  if Object_is (localState h) context then h
  else
    reduceEffect now (Some (localState h))
      {| mounted := mounted h;
         localState := context;
         updatesState := updatesState h;
         reduced := reduced h;
         issued := issued h;
         stateChangeSubscribed := stateChangeSubscribed h;
         internalEventsSubscribed := internalEventsSubscribed h |}.

(** [setUpdatesState(updater)]: the context is the same object as before,
    so the reduce effect does not run again. *)
Definition setUpdatesState (updater : State.t -> State.t) (h : UseUpdates)
  : UseUpdates :=
  {| mounted := mounted h;
     localState := localState h;
     updatesState := updater (updatesState h);
     reduced := reduced h;
     issued := issued h;
     stateChangeSubscribed := stateChangeSubscribed h;
     internalEventsSubscribed := internalEventsSubscribed h |}.

(** The cleanups of the effects. *)
Definition unmount (h : UseUpdates) : UseUpdates :=
  {| mounted := false;
     localState := localState h;
     updatesState := updatesState h;
     reduced := reduced h;
     issued := issued h;
     stateChangeSubscribed := false;
     internalEventsSubscribed := false |}.

(** One event, handled to completion at clock reading [now].  State updates
    of an unmounted hook are dropped, and a removed subscription delivers
    nothing. *)
Definition step (now : Z) (ev : HookEvent) (h : UseUpdates) : UseUpdates :=
  if negb (mounted h) then h
  else
    match ev with
    | FetchResolved context => setLocalState now context h
    | StateChange context =>
        if stateChangeSubscribed h then setLocalState now context h else h
    | InternalEvent event =>
        if internalEventsSubscribed h
        then setUpdatesState (onInternalEvent event) h
        else h
    | Unmount => unmount h
    end.

Fixpoint run (trace : list (Z * HookEvent)) (h : UseUpdates) : UseUpdates :=
  match trace with
  | [] => h
  | (now, ev) :: rest => run rest (step now ev h)
  end.

End Orchestrator.

(** The context snapshots that reach a hook while it is mounted, in order. *)
Fixpoint snapshots (trace : list (Z * HookEvent)) : list (Obj Context.t) :=
  match trace with
  | [] => []
  | (_, FetchResolved context) :: rest => context :: snapshots rest
  | (_, StateChange context) :: rest => context :: snapshots rest
  | (_, InternalEvent _) :: rest => snapshots rest
  | (_, Unmount) :: _ => []
  end.


(** ** The event emitter and [useUpdateEvents] *)

(** A JavaScript function value, identified by reference. *)
Definition FunctionRef := nat.

(** Modelled from the spec: the emitter behind [addListener] lives in
    [UpdatesEmitter], which is not among the sources.  [subscribe] returns a
    subscription, delivery is in subscription order, and [remove]
    unsubscribes idempotently. *)
Record Emitter := {
  nextKey : nat;
  subscribers : list (nat * FunctionRef)
}.

(** Modelled from the spec: [addListener] of [UpdatesEmitter]; the result is
    the key of the new subscription and the emitter that holds it. *)
Definition addListener (listener : FunctionRef) (e : Emitter)
  : nat * Emitter :=
  (nextKey e,
   {| nextKey := S (nextKey e);
      subscribers := subscribers e ++ [(nextKey e, listener)] |}).

(** Modelled from the spec: [subscription.remove()]. *)
Definition remove (subscription : nat) (e : Emitter) : Emitter :=
  {| nextKey := nextKey e;
     subscribers :=
       filter (fun s => negb (Nat.eqb (fst s) subscription)) (subscribers e) |}.

(** Modelled from the spec: the functions a publish invokes, in order. *)
Definition invoked (e : Emitter) : list FunctionRef :=
  map snd (subscribers e).

(** One activation of [useUpdateEvents]: [listenerRef.current], the
    [listener] of the last committed render (the dependency of the first
    effect), and the subscription that the cleanup of the second effect will
    remove. *)
Record UseUpdateEvents := {
  listenerRef : option FunctionRef;
  renderedListener : option FunctionRef;
  subscription : option nat
}.

(** [Object.is] on two values that are a function or [undefined]. *)
Definition sameListener (x y : option FunctionRef) : bool :=
  match x, y with
  | Some f, Some g => Nat.eqb f g
  | None, None => true
  | _, _ => false
  end.

(** First render with [listener], then the two effects in order: the first
    stores [listener] in the ref, the second subscribes what the ref holds,
    if it holds anything. *)
Definition useUpdateEvents_mount (listener : option FunctionRef)
    (e : Emitter) : UseUpdateEvents * Emitter :=
  let current := listener in
  match current with
  | Some f =>
      let (sub, e') := addListener f e in
      ({| listenerRef := current;
          renderedListener := listener;
          subscription := Some sub |}, e')
  | None =>
      ({| listenerRef := current;
          renderedListener := listener;
          subscription := None |}, e)
  end.

(** A later render with [listener]: the first effect runs when [listener]
    is another value than at the previous render; the second effect, whose
    dependency array is empty, does not run again. *)
Definition useUpdateEvents_render (listener : option FunctionRef)
    (he : UseUpdateEvents * Emitter) : UseUpdateEvents * Emitter :=
  let (h, e) := he in
  if sameListener (renderedListener h) listener then (h, e)
  else
    ({| listenerRef := listener;
        renderedListener := listener;
        subscription := subscription h |}, e).

(** Unmount: the cleanup of the second effect, if it returned one. *)
Definition useUpdateEvents_unmount (he : UseUpdateEvents * Emitter)
  : Emitter :=
  let (h, e) := he in
  match subscription h with
  | Some sub => remove sub e
  | None => e
  end.

(** Keys handed out so far are below [nextKey]. *)
Definition keysBelowNext (e : Emitter) : Prop :=
  Forall (fun s => (fst s < nextKey e)%nat) (subscribers e).

(** ** The data of the test suite

    The values that [UseUpdates-test.tsx] builds, with the creation time of
    the manifest fixed. *)

Definition mockManifest : Manifest.t :=
  {| Manifest.id := "0000-2222";
     Manifest.createdAt := "2023-03-26T04:58:02.560Z";
     Manifest.runtimeVersion := "1.0.0";
     Manifest.launchAsset := {| Asset.url := "testUrl" |};
     Manifest.assets := [];
     Manifest.metadata := [] |}.

Definition mockError : UpdatesError.t :=
  {| UpdatesError.name := "UpdatesError";
     UpdatesError.code := "ERR_TEST";
     UpdatesError.message := "test message" |}.

(** [new Date(s)], as far as the tests need it. *)
Definition mockParseDate (s : string) : Date :=
  if String.eqb s "2023-03-26T04:58:02.560Z" then Instant 1679806682560
  else InvalidDate.

Definition contextOf (isUpdateAvailable isUpdatePending isRollback
    isChecking isDownloading : bool)
    (checkError downloadError : option UpdatesError.t)
    (latestManifest downloadedManifest : option Manifest.t) : Context.t :=
  {| Context.isUpdateAvailable := isUpdateAvailable;
     Context.isUpdatePending := isUpdatePending;
     Context.isRollback := isRollback;
     Context.isChecking := isChecking;
     Context.isDownloading := isDownloading;
     Context.isRestarting := false;
     Context.checkError := checkError;
     Context.downloadError := downloadError;
     Context.latestManifest := latestManifest;
     Context.downloadedManifest := downloadedManifest |}.

Definition isCheckingContext : Context.t :=
  contextOf false false false true false None None None None.

Definition updateAvailableContext : Context.t :=
  contextOf true false false false false None None (Some mockManifest) None.

Definition updateUnavailableContext : Context.t :=
  contextOf false false false false false None None None None.

Definition checkErrorContext : Context.t :=
  contextOf false false false false false (Some mockError) None None None.

Definition isDownloadingContext : Context.t :=
  contextOf false false false false true None None None None.

Definition updateDownloadedContext : Context.t :=
  contextOf true true false false false None None
    (Some mockManifest) (Some mockManifest).

Definition downloadErrorContext : Context.t :=
  contextOf false false false false false None (Some mockError) None None.

(** A rollback directive that still carries a manifest. *)
Definition rollbackContext : Context.t :=
  contextOf true false true false false None None (Some mockManifest) None.

(** The state in which a check is under way. *)
Definition checkingState : State.t :=
  reduceUpdatesStateFromContext mockParseDate 0 defaultUseUpdatesState
    isCheckingContext.

Definition threeLogEntries : list UpdatesLogEntry.t :=
  [ {| UpdatesLogEntry.timestamp := 1; UpdatesLogEntry.message := "first" |};
    {| UpdatesLogEntry.timestamp := 2; UpdatesLogEntry.message := "second" |};
    {| UpdatesLogEntry.timestamp := 3; UpdatesLogEntry.message := "third" |} ].

(** A state that carries an error from an earlier failure. *)
Definition stateWithError : State.t :=
  withError checkingState (Some mockError).

Definition readLogEntriesCompleteEvent : UseUpdatesEvent.t :=
  {| UseUpdatesEvent.type := READ_LOG_ENTRIES_COMPLETE;
     UseUpdatesEvent.error := None;
     UseUpdatesEvent.logEntries := Some threeLogEntries |}.

Definition errorEvent : UseUpdatesEvent.t :=
  {| UseUpdatesEvent.type := ERROR;
     UseUpdatesEvent.error := Some mockError;
     UseUpdatesEvent.logEntries := None |}.

(** A notification with a tag that the handler does not know, which even
    carries an error and entries. *)
Definition otherEvent : UseUpdatesEvent.t :=
  {| UseUpdatesEvent.type := OtherEventType "downloadComplete";
     UseUpdatesEvent.error := Some mockError;
     UseUpdatesEvent.logEntries := Some threeLogEntries |}.


(** The fetched context, then a check that finds an update. *)
Definition checkTrace : list (Z * HookEvent) :=
  [ (10, FetchResolved {| addr := 1; value := updateUnavailableContext |});
    (20, StateChange {| addr := 2; value := isCheckingContext |});
    (30, StateChange {| addr := 3; value := updateAvailableContext |}) ].

(** An emitter on which function 5 is already subscribed. *)
Definition busyEmitter : Emitter :=
  {| nextKey := 1; subscribers := [(0%nat, 5%nat)] |}.

(** ** Sequences of calls and of notifications *)

(** The three dispatchers that only start a native operation, as values, so
    that a sequence of calls can be run. *)
Inductive Dispatcher :=
| CheckForUpdate
| DownloadUpdate
| RunUpdate.

Definition dispatch (d : Dispatcher) : Eff unit :=
  match d with
  | CheckForUpdate => checkForUpdate
  | DownloadUpdate => downloadUpdate
  | RunUpdate => runUpdate
  end.

(** The native operation that each dispatcher starts. *)
Definition nativeCallOf (d : Dispatcher) : NativeCall :=
  match d with
  | CheckForUpdate => CheckForUpdateAsync
  | DownloadUpdate => FetchUpdateAsync
  | RunUpdate => ReloadAsync
  end.

(** The dispatchers of [ds] called one after the other. *)
Fixpoint dispatchAll (ds : list Dispatcher) : Eff unit :=
  match ds with
  | [] => ret tt
  | d :: rest => (dispatch d ;; dispatchAll rest)%eff
  end.

Definition isErrorEvent (event : UseUpdatesEvent.t) : bool :=
  match UseUpdatesEvent.type event with
  | ERROR => true
  | _ => false
  end.

Definition isReadLogEntriesCompleteEvent (event : UseUpdatesEvent.t) : bool :=
  match UseUpdatesEvent.type event with
  | READ_LOG_ENTRIES_COMPLETE => true
  | _ => false
  end.

(** The listener of [useUpdates] called on each notification of [events],
    oldest first. *)
Definition onInternalEvents (events : list UseUpdatesEvent.t)
    (updatesState : State.t) : State.t :=
  fold_left (fun s event => onInternalEvent event s) events updatesState.

(** The notifications published between two worlds. *)
Definition publishedSince (before after : World) : list UseUpdatesEvent.t :=
  skipn (length (published before)) (published after).

(** An address identifies one object: two objects of [objs] at the same
    address are the same object. *)
Definition addressesIdentify (objs : list (Obj Context.t)) : Prop :=
  forall o1 o2, In o1 objs -> In o2 objs -> addr o1 = addr o2 -> o1 = o2.

(** A publisher whose subscriber throws: the notification is delivered and
    then [mockError] is thrown at the caller. *)
Definition throwingPublisher (event : UseUpdatesEvent.t) : Eff unit :=
  (emitUseUpdatesEvent event ;; fun w => (Throw mockError, w))%eff.

Definition emptyWorld : World := {| nativeCalls := []; published := [] |}.

(** A native module whose read succeeds with three entries, and one whose
    read fails. *)
Definition fulfillingNative : NativeModule :=
  {| readLogEntriesAsync_settles := fun _ => Fulfilled threeLogEntries |}.

Definition rejectingNative : NativeModule :=
  {| readLogEntriesAsync_settles := fun _ => Rejected mockError |}.

(** * Properties of the reducer *)

Section ReducerProperties.

Variable parseDate : string -> Date.

Local Abbreviation reduce := (reduceUpdatesStateFromContext parseDate).

Lemma leavesChecking_after_reduce (now : Z) (s : State.t) (c : Context.t) :
  leavesChecking (reduce now s c) c = false.
Proof.
  unfold leavesChecking; cbn.
  destruct (Context.isChecking c); reflexivity.
Qed.

(** C2. Idempotence: reducing the same context a second time changes
    nothing, [reduce(reduce(s, c), c) = reduce(s, c)], whatever the clock
    shows at the two evaluations. *)
Theorem reduce_idempotent (now1 now2 : Z) (s : State.t) (c : Context.t) :
  reduce now2 (reduce now1 s c) c = reduce now1 s c.
Proof.
  unfold reduceUpdatesStateFromContext at 1.
  rewrite leavesChecking_after_reduce.
  reflexivity.
Qed.

(** C3. Rollback exclusion: a context with [isRollback] true yields no
    [availableUpdate], also when [latestManifest] is set. *)
Theorem rollback_has_no_availableUpdate
    (now : Z) (s : State.t) (c : Context.t) :
  Context.isRollback c = true ->
  State.availableUpdate (reduce now s c) = None.
Proof.
  intros Hrollback; cbn.
  unfold availableUpdateFromContext.
  rewrite Hrollback.
  destruct (Context.latestManifest c); reflexivity.
Qed.

(** C7. Error precedence: the [error] of the reduced state is [checkError]
    when present, else [downloadError] when present, else undefined; a
    context with neither clears the error that the previous state carried. *)
Theorem reduce_error_precedence (now : Z) (s : State.t) (c : Context.t) :
  State.error (reduce now s c) =
    match Context.checkError c, Context.downloadError c with
    | Some e, _ => Some e
    | None, Some e => Some e
    | None, None => None
    end
  /\ (Context.checkError c = None -> Context.downloadError c = None ->
      State.error (reduce now s c) = None).
Proof.
  split.
  - cbn; unfold errorFromContext.
    destruct (Context.checkError c), (Context.downloadError c); reflexivity.
  - intros Hcheck Hdownload; cbn; unfold errorFromContext.
    rewrite Hcheck, Hdownload; reflexivity.
Qed.

(** C8. Flag fidelity: the four flags of the reduced state are the flags of
    the context. *)
Theorem reduce_flag_fidelity (now : Z) (s : State.t) (c : Context.t) :
  State.isUpdateAvailable (reduce now s c) = Context.isUpdateAvailable c /\
  State.isUpdatePending (reduce now s c) = Context.isUpdatePending c /\
  State.isChecking (reduce now s c) = Context.isChecking c /\
  State.isDownloading (reduce now s c) = Context.isDownloading c.
Proof. repeat split. Qed.

End ReducerProperties.

(** The two tests of [availableUpdateFromContext] in the test suite. *)
Example availableUpdateFromContext_with_manifest :
  availableUpdateFromContext mockParseDate updateAvailableContext
  = Some {| UpdateInfo.updateId := "0000-2222";
            UpdateInfo.createdAt := Instant 1679806682560;
            UpdateInfo.manifest := mockManifest |}.
Proof. reflexivity. Qed.

Example availableUpdateFromContext_without_manifest :
  availableUpdateFromContext mockParseDate updateUnavailableContext = None.
Proof. reflexivity. Qed.

(** Scenarios 1, 3 and 4 of the specification. *)
Example scenario_nothing_found :
  State.isUpdateAvailable
    (reduceUpdatesStateFromContext mockParseDate 5 defaultUseUpdatesState
       updateUnavailableContext) = false /\
  State.availableUpdate
    (reduceUpdatesStateFromContext mockParseDate 5 defaultUseUpdatesState
       updateUnavailableContext) = None.
Proof. split; reflexivity. Qed.

Example scenario_check_error :
  option_map UpdatesError.message
    (State.error
       (reduceUpdatesStateFromContext mockParseDate 5 checkingState
          checkErrorContext)) = Some "test message"%string /\
  State.isUpdateAvailable
    (reduceUpdatesStateFromContext mockParseDate 5 checkingState
       checkErrorContext) = false.
Proof. split; reflexivity. Qed.

Example scenario_update_downloaded :
  option_map UpdateInfo.manifest
    (State.downloadedUpdate
       (reduceUpdatesStateFromContext mockParseDate 6
          (reduceUpdatesStateFromContext mockParseDate 5
             defaultUseUpdatesState isDownloadingContext)
          updateDownloadedContext)) = Some mockManifest /\
  State.isUpdatePending
    (reduceUpdatesStateFromContext mockParseDate 6
       (reduceUpdatesStateFromContext mockParseDate 5
          defaultUseUpdatesState isDownloadingContext)
       updateDownloadedContext) = true.
Proof. split; reflexivity. Qed.

(** C3 at the rollback context of the test data. *)
Lemma rollback_has_no_availableUpdate_witness :
  Context.isRollback rollbackContext = true /\
  Context.latestManifest rollbackContext = Some mockManifest /\
  State.availableUpdate
    (reduceUpdatesStateFromContext mockParseDate 5 checkingState
       rollbackContext) = None.
Proof.
  split; [reflexivity | split; [reflexivity |]].
  apply (rollback_has_no_availableUpdate mockParseDate 5 checkingState
           rollbackContext).
  reflexivity.
Defined.

(** C7 at a context without errors, from a state that carries one. *)
Lemma reduce_error_precedence_witness :
  State.error stateWithError = Some mockError /\
  State.error
    (reduceUpdatesStateFromContext mockParseDate 5 stateWithError
       updateUnavailableContext)
  = None.
Proof.
  split; [reflexivity |].
  apply (proj2 (reduce_error_precedence mockParseDate 5 stateWithError
                  updateUnavailableContext)); reflexivity.
Defined.

(** * Properties of the completion-notification handler *)

(** C4. Frame of the handler: an [ERROR] notification sets [error] to the
    error it carries and leaves every other field as it was; a
    [READ_LOG_ENTRIES_COMPLETE] notification sets [logEntries] to the entries
    it carries and leaves every other field, [error] included, as it was. *)
Theorem onInternalEvent_frame (event : UseUpdatesEvent.t) (s : State.t) :
  let s' := onInternalEvent event s in
  (UseUpdatesEvent.type event = ERROR ->
     State.error s' = UseUpdatesEvent.error event /\
     State.logEntries s' = State.logEntries s /\
     State.availableUpdate s' = State.availableUpdate s /\
     State.downloadedUpdate s' = State.downloadedUpdate s /\
     State.isUpdateAvailable s' = State.isUpdateAvailable s /\
     State.isUpdatePending s' = State.isUpdatePending s /\
     State.isChecking s' = State.isChecking s /\
     State.isDownloading s' = State.isDownloading s /\
     State.lastCheckForUpdateTimeAsync s'
       = State.lastCheckForUpdateTimeAsync s) /\
  (UseUpdatesEvent.type event = READ_LOG_ENTRIES_COMPLETE ->
     State.logEntries s' = UseUpdatesEvent.logEntries event /\
     State.error s' = State.error s /\
     State.availableUpdate s' = State.availableUpdate s /\
     State.downloadedUpdate s' = State.downloadedUpdate s /\
     State.isUpdateAvailable s' = State.isUpdateAvailable s /\
     State.isUpdatePending s' = State.isUpdatePending s /\
     State.isChecking s' = State.isChecking s /\
     State.isDownloading s' = State.isDownloading s /\
     State.lastCheckForUpdateTimeAsync s'
       = State.lastCheckForUpdateTimeAsync s).
Proof.
  intros s'; subst s'; unfold onInternalEvent.
  split; intros Htype; rewrite Htype; cbn; repeat split.
Qed.

(** C4 on the data of scenario 5, three entries arriving while the state
    carries an error, and on an error arriving after them. *)
Lemma onInternalEvent_frame_witness :
  (State.logEntries (onInternalEvent readLogEntriesCompleteEvent stateWithError)
     = Some threeLogEntries /\
   State.error (onInternalEvent readLogEntriesCompleteEvent stateWithError)
     = Some mockError) /\
  (State.error (onInternalEvent errorEvent defaultUseUpdatesState)
     = Some mockError /\
   State.logEntries (onInternalEvent errorEvent defaultUseUpdatesState)
     = None).
Proof.
  split.
  - destruct (proj2 (onInternalEvent_frame readLogEntriesCompleteEvent
                       stateWithError) eq_refl) as (Hlog & Herr & _).
    split; [exact Hlog | exact Herr].
  - destruct (proj1 (onInternalEvent_frame errorEvent defaultUseUpdatesState)
                eq_refl) as (Herr & Hlog & _).
    split; [exact Herr | exact Hlog].
Defined.

(** C10. A notification whose type is neither [ERROR] nor
    [READ_LOG_ENTRIES_COMPLETE] leaves the state as it was. *)
Theorem onInternalEvent_other_type (event : UseUpdatesEvent.t) (s : State.t) :
  UseUpdatesEvent.type event <> ERROR ->
  UseUpdatesEvent.type event <> READ_LOG_ENTRIES_COMPLETE ->
  onInternalEvent event s = s.
Proof.
  intros Herror Hread; unfold onInternalEvent.
  destruct (UseUpdatesEvent.type event); congruence.
Qed.

(** C10 at a notification with another tag. *)
Lemma onInternalEvent_other_type_witness :
  onInternalEvent otherEvent stateWithError = stateWithError.
Proof.
  apply onInternalEvent_other_type; discriminate.
Defined.

(** * Properties of the dispatchers *)

Lemma dispatchers_call_once (w : World) :
  checkForUpdate w
    = (Normal tt,
       {| nativeCalls := nativeCalls w ++ [CheckForUpdateAsync];
          published := published w |}) /\
  downloadUpdate w
    = (Normal tt,
       {| nativeCalls := nativeCalls w ++ [FetchUpdateAsync];
          published := published w |}) /\
  runUpdate w
    = (Normal tt,
       {| nativeCalls := nativeCalls w ++ [ReloadAsync];
          published := published w |}).
Proof. repeat split. Qed.

(** C5. A call [readLogEntries(maxAge)], with [maxAge] defaulting to
    3600000, completes normally, makes exactly one call into the native
    module (the read, with that age) and publishes nothing by itself.  When
    the read settles, the chain it left publishes exactly one notification:
    [READ_LOG_ENTRIES_COMPLETE] with the entries, in their order, if the read
    succeeded, [ERROR] with the error if it failed; it makes no further
    native call.  While the read is pending nothing is published. *)
Theorem readLogEntries_one_read_one_notification
    (native : NativeModule) (maxAge : option Z) (w : World) :
  let age := match maxAge with Some m => m | None => 3600000 end in
  exists chain : Promise unit,
    readLogEntries native maxAge w
      = (Normal chain,
         {| nativeCalls := nativeCalls w ++ [ReadLogEntriesAsync age];
            published := published w |}) /\
    forall w' : World,
      match readLogEntriesAsync_settles native age with
      | Fulfilled logEntries =>
          chain w'
            = (Fulfilled tt,
               {| nativeCalls := nativeCalls w';
                  published :=
                    published w' ++
                      [ {| UseUpdatesEvent.type := READ_LOG_ENTRIES_COMPLETE;
                           UseUpdatesEvent.error := None;
                           UseUpdatesEvent.logEntries := Some logEntries |} ]
               |})
      | Rejected error =>
          chain w'
            = (Fulfilled tt,
               {| nativeCalls := nativeCalls w';
                  published :=
                    published w' ++
                      [ {| UseUpdatesEvent.type := ERROR;
                           UseUpdatesEvent.error := Some error;
                           UseUpdatesEvent.logEntries := None |} ] |})
      | Pending => chain w' = (Pending, w')
      end.
Proof.
  intros age.
  eexists; split.
  - unfold readLogEntries, readLogEntries_with, Updates_readLogEntriesAsync,
      bind, callNative, ret; cbn.
    fold age; reflexivity.
  - intros w'.
    unfold promise_catch, promise_then, settled, emitUseUpdatesEvent.
    destruct (readLogEntriesAsync_settles native age); reflexivity.
Qed.

(** The exclusion of the two notifications rests on the publisher completing
    normally: with a publisher that throws after it has delivered, the
    [catch] callback runs after the [then] callback and a successful read
    ends in two calls of the publisher. *)
Remark readLogEntries_with_throwing_publisher
    (entries : list UpdatesLogEntry.t) (w : World) :
  let throwing (event : UseUpdatesEvent.t) : Eff unit :=
    (emitUseUpdatesEvent event ;; fun w => (Throw mockError, w))%eff in
  let native := {| readLogEntriesAsync_settles := fun _ => Fulfilled entries |} in
  forall chain w1,
    readLogEntries_with throwing native None w = (Normal chain, w1) ->
    length (published (snd (chain w1))) = (length (published w) + 2)%nat.
Proof.
  intros throwing native chain w1 Hcall.
  unfold readLogEntries_with, Updates_readLogEntriesAsync, bind, callNative,
    ret in Hcall; cbn in Hcall.
  injection Hcall as Hchain Hw1; subst chain w1.
  cbn. rewrite !length_app; cbn. lia.
Qed.

(** * Properties of the hook orchestrator *)

Section OrchestratorProperties.

Variable parseDate : string -> Date.

Lemma step_unmounted (now : Z) (ev : HookEvent) (h : UseUpdates) :
  mounted h = false -> step parseDate now ev h = h.
Proof. intros Hm; unfold step; rewrite Hm; reflexivity. Qed.

Lemma run_unmounted (trace : list (Z * HookEvent)) (h : UseUpdates) :
  mounted h = false -> run parseDate trace h = h.
Proof.
  induction trace as [| [now ev] rest IH]; intros Hm; cbn.
  - reflexivity.
  - rewrite step_unmounted by exact Hm. apply IH; exact Hm.
Qed.

(** Handing over the object already held changes nothing. *)
Lemma setLocalState_same_object
    (now : Z) (c : Obj Context.t) (h : UseUpdates) :
  Object_is (localState h) c = true -> setLocalState parseDate now c h = h.
Proof. intros Hsame; unfold setLocalState; rewrite Hsame; reflexivity. Qed.


(** A completion notification goes through the handler and nowhere else. *)
Lemma step_internal_event
    (now : Z) (event : UseUpdatesEvent.t) (h : UseUpdates) :
  mounted h = true -> internalEventsSubscribed h = true ->
  let h' := step parseDate now (InternalEvent event) h in
  updatesState h' = onInternalEvent event (updatesState h) /\
  reduced h' = reduced h /\
  localState h' = localState h.
Proof.
  intros Hm Hsub h'; subst h'.
  unfold step; rewrite Hm, Hsub; cbn.
  repeat split.
Qed.



End OrchestratorProperties.



(** Scenario 2 of the specification, end to end. *)
Example scenario_update_available :
  let h :=
    run mockParseDate
      [ (20, StateChange {| addr := 2; value := isCheckingContext |});
        (30, StateChange {| addr := 3; value := updateAvailableContext |}) ]
      (mount mockParseDate 0 0) in
  option_map UpdateInfo.updateId (State.availableUpdate (updatesState h))
    = Some "0000-2222"%string /\
  State.lastCheckForUpdateTimeAsync (updatesState h) = Some (Instant 30) /\
  State.isUpdateAvailable (updatesState h) = true.
Proof. repeat split. Qed.

(** Scenario 5 of the specification, end to end: the notification that
    [readLogEntries] publishes, handed to a mounted hook. *)
Example scenario_read_log_entries :
  let native :=
    {| readLogEntriesAsync_settles := fun _ => Fulfilled threeLogEntries |} in
  let w0 := {| nativeCalls := []; published := [] |} in
  let h0 := mount mockParseDate 0 0 in
  match readLogEntries native None w0 with
  | (Normal chain, w1) =>
      let h1 :=
        fold_left (fun h event => step mockParseDate 40 (InternalEvent event) h)
          (published (snd (chain w1))) h0 in
      State.logEntries (updatesState h1) = Some threeLogEntries /\
      State.error (updatesState h1) = State.error (updatesState h0)
  | (Throw _, _) => False
  end.
Proof. cbn. split; reflexivity. Qed.

(** * Properties of [useUpdateEvents] *)

Lemma sameListener_eq (x y : option FunctionRef) :
  sameListener x y = true -> x = y.
Proof.
  destruct x as [f |], y as [g |]; cbn; intros H; try discriminate.
  - apply Nat.eqb_eq in H; subst; reflexivity.
  - reflexivity.
Qed.

Lemma last_cons {A} (x : A) (l : list A) (d : A) :
  last (x :: l) d = last l x.
Proof.
  revert x d; induction l as [| y rest IH]; intros x d.
  - reflexivity.
  - change (last (x :: y :: rest) d) with (last (y :: rest) d).
    rewrite (IH y d), (IH y x); reflexivity.
Qed.

(** Later renders keep the emitter and the subscription, and leave the last
    listener in the ref. *)
Lemma useUpdateEvents_renders (ls : list (option FunctionRef)) :
  forall (h : UseUpdateEvents) (e : Emitter),
    listenerRef h = renderedListener h ->
    let later :=
      fold_left (fun he l => useUpdateEvents_render l he) ls (h, e) in
    snd later = e /\
    subscription (fst later) = subscription h /\
    listenerRef (fst later) = last ls (listenerRef h).
Proof.
  induction ls as [| l rest IH]; intros h e Hinv.
  - repeat split.
  - rewrite last_cons; cbn [fold_left].
    assert (Hrender : exists h',
               useUpdateEvents_render l (h, e) = (h', e) /\
               listenerRef h' = l /\ renderedListener h' = l /\
               subscription h' = subscription h).
    { unfold useUpdateEvents_render.
      destruct (sameListener (renderedListener h) l) eqn:Hsame.
      - apply sameListener_eq in Hsame.
        exists h; repeat split; congruence.
      - eexists; repeat split. }
    destruct Hrender as (h' & Hstep & Hl & Hr & Hs).
    rewrite Hstep.
    destruct (IH h' e) as (He & Hsub & Href); [congruence |].
    repeat split; congruence.
Qed.

Lemma remove_fresh_key (e : Emitter) (f : FunctionRef) :
  keysBelowNext e ->
  filter (fun s => negb (Nat.eqb (fst s) (nextKey e)))
    (subscribers e ++ [(nextKey e, f)])
  = subscribers e.
Proof.
  intros Hkeys.
  rewrite filter_app; cbn.
  rewrite Nat.eqb_refl; cbn.
  rewrite app_nil_r.
  unfold keysBelowNext in Hkeys.
  induction Hkeys as [| s l Hs Hl IH]; cbn.
  - reflexivity.
  - destruct (Nat.eqb_spec (fst s) (nextKey e)) as [Heq | Hne]; cbn.
    + lia.
    + rewrite IH; reflexivity.
Qed.

(** C9. The subscription made on mount holds the listener of the first
    render.  Whatever listeners the later renders pass, they reach only the
    ref: the emitter still holds, under the key of that subscription, the
    first listener, and that is the function a publish invokes.  Unmount
    removes this subscription, and only it. *)
Theorem useUpdateEvents_subscribes_mount_listener
    (first : FunctionRef) (ls : list (option FunctionRef)) (e : Emitter) :
  let later :=
    fold_left (fun he l => useUpdateEvents_render l he) ls
      (useUpdateEvents_mount (Some first) e) in
  subscribers (snd later) = subscribers e ++ [(nextKey e, first)] /\
  invoked (snd later) = invoked e ++ [first] /\
  subscription (fst later) = Some (nextKey e) /\
  listenerRef (fst later) = last ls (Some first) /\
  (keysBelowNext e ->
   subscribers (useUpdateEvents_unmount later) = subscribers e).
Proof.
  intros later; subst later.
  unfold useUpdateEvents_mount, addListener.
  match goal with
  | |- context [fold_left _ ls (?h0, ?e0)] =>
      destruct (useUpdateEvents_renders ls h0 e0 eq_refl)
        as (He & Hsub & Href);
      destruct (fold_left (fun he l => useUpdateEvents_render l he) ls (h0, e0))
        as [h' e'] eqn:Hfold
  end.
  cbn in He, Hsub, Href; subst e'.
  cbn.
  repeat split.
  - unfold invoked; cbn. rewrite map_app; reflexivity.
  - exact Hsub.
  - exact Href.
  - intros Hkeys. rewrite Hsub; cbn.
    apply remove_fresh_key; exact Hkeys.
Qed.

(** C9 on an emitter that already has a subscriber: the hook mounts with
    listener 7 and is rendered again with listeners 8 and 9. *)
Lemma useUpdateEvents_subscribes_mount_listener_witness :
  keysBelowNext busyEmitter /\
  invoked
    (snd (fold_left (fun he l => useUpdateEvents_render l he)
            [Some 8%nat; Some 9%nat]
            (useUpdateEvents_mount (Some 7%nat) busyEmitter)))
    = [5%nat; 7%nat] /\
  listenerRef
    (fst (fold_left (fun he l => useUpdateEvents_render l he)
            [Some 8%nat; Some 9%nat]
            (useUpdateEvents_mount (Some 7%nat) busyEmitter)))
    = Some 9%nat /\
  subscribers
    (useUpdateEvents_unmount
       (fold_left (fun he l => useUpdateEvents_render l he)
          [Some 8%nat; Some 9%nat]
          (useUpdateEvents_mount (Some 7%nat) busyEmitter)))
    = [(0%nat, 5%nat)].
Proof.
  assert (Hkeys : keysBelowNext busyEmitter).
  { constructor; [cbn; lia | constructor]. }
  destruct (useUpdateEvents_subscribes_mount_listener
              7%nat [Some 8%nat; Some 9%nat] busyEmitter)
    as (_ & Hinv & _ & Href & Hun).
  split; [exact Hkeys |].
  split; [exact Hinv |].
  split; [exact Href |].
  exact (Hun Hkeys).
Defined.

(** * Further properties of the completion-notification handler *)

Lemma onInternalEvents_snoc (events : list UseUpdatesEvent.t)
    (event : UseUpdatesEvent.t) (s : State.t) :
  onInternalEvents (events ++ [event]) s
  = onInternalEvent event (onInternalEvents events s).
Proof. unfold onInternalEvents; rewrite fold_left_app; reflexivity. Qed.

(** X1. Two notifications of different types can be handled in either
    order: the state that results is the same. *)
Theorem onInternalEvent_commutes
    (event1 event2 : UseUpdatesEvent.t) (s : State.t) :
  UseUpdatesEvent.type event1 <> UseUpdatesEvent.type event2 ->
  onInternalEvent event1 (onInternalEvent event2 s)
  = onInternalEvent event2 (onInternalEvent event1 s).
Proof.
  intros Hdiff; unfold onInternalEvent.
  destruct (UseUpdatesEvent.type event1), (UseUpdatesEvent.type event2);
    try reflexivity; contradiction Hdiff; reflexivity.
Qed.

Lemma onInternalEvent_commutes_witness :
  onInternalEvent errorEvent
    (onInternalEvent readLogEntriesCompleteEvent checkingState)
  = onInternalEvent readLogEntriesCompleteEvent
      (onInternalEvent errorEvent checkingState).
Proof.
  apply onInternalEvent_commutes; discriminate.
Defined.

(** X2. After any sequence of notifications the last one of each kind has
    won: [error] is what the last [ERROR] notification carried (the previous
    error if there was none), [logEntries] is what the last
    [READ_LOG_ENTRIES_COMPLETE] notification carried (the previous entries if
    there was none), and the seven fields that the native context drives are
    as before. *)
Theorem onInternalEvents_last_write_wins
    (events : list UseUpdatesEvent.t) (s : State.t) :
  State.error (onInternalEvents events s)
    = match find isErrorEvent (rev events) with
      | Some event => UseUpdatesEvent.error event
      | None => State.error s
      end /\
  State.logEntries (onInternalEvents events s)
    = match find isReadLogEntriesCompleteEvent (rev events) with
      | Some event => UseUpdatesEvent.logEntries event
      | None => State.logEntries s
      end /\
  State.availableUpdate (onInternalEvents events s) = State.availableUpdate s /\
  State.downloadedUpdate (onInternalEvents events s)
    = State.downloadedUpdate s /\
  State.isUpdateAvailable (onInternalEvents events s)
    = State.isUpdateAvailable s /\
  State.isUpdatePending (onInternalEvents events s) = State.isUpdatePending s /\
  State.isChecking (onInternalEvents events s) = State.isChecking s /\
  State.isDownloading (onInternalEvents events s) = State.isDownloading s /\
  State.lastCheckForUpdateTimeAsync (onInternalEvents events s)
    = State.lastCheckForUpdateTimeAsync s.
Proof.
  induction events as [| event events IH] using rev_ind.
  - cbn; repeat split.
  - rewrite onInternalEvents_snoc, rev_unit; cbn [find].
    destruct IH as (He & Hl & Ha & Hd & Hua & Hup & Hc & Hdl & Ht).
    unfold onInternalEvent, isErrorEvent, isReadLogEntriesCompleteEvent.
    destruct (UseUpdatesEvent.type event); cbn;
      repeat split; assumption.
Qed.

(** * Further properties of the dispatchers *)

(** X3. Any sequence of calls of [checkForUpdate], [downloadUpdate] and
    [runUpdate] completes normally, starts exactly one native operation per
    call, in the order of the calls, and publishes no notification. *)
Theorem dispatchAll_calls_in_order (ds : list Dispatcher) (w : World) :
  dispatchAll ds w
  = (Normal tt,
     {| nativeCalls := nativeCalls w ++ map nativeCallOf ds;
        published := published w |}).
Proof.
  revert w; induction ds as [| d rest IH]; intros w.
  - cbn; unfold ret. rewrite app_nil_r. destruct w; reflexivity.
  - cbn [dispatchAll map]; unfold bind.
    assert (Hd : dispatch d w
                 = (Normal tt,
                    {| nativeCalls := nativeCalls w ++ [nativeCallOf d];
                       published := published w |}))
      by (destruct d; reflexivity).
    rewrite Hd, IH; cbn.
    rewrite <- app_assoc; reflexivity.
Qed.

(** X4. [readLogEntries] over any publisher.  The call completes normally
    after one native read, whatever the publisher does.  When the read is
    rejected, the completion notification is never published and the error
    goes to the [ERROR] publication.  When the read is fulfilled, the
    completion notification is published first; if that publication throws,
    what it threw is published as an [ERROR] notification, and if it completes
    normally no [ERROR] is published.  The chain ends rejected only when the
    [ERROR] publication itself throws. *)
Theorem readLogEntries_with_any_publisher
    (emit : UseUpdatesEvent.t -> Eff unit)
    (native : NativeModule) (maxAge : option Z) (w : World) :
  let age := match maxAge with Some m => m | None => 3600000 end in
  let complete logEntries :=
    {| UseUpdatesEvent.type := READ_LOG_ENTRIES_COMPLETE;
       UseUpdatesEvent.error := None;
       UseUpdatesEvent.logEntries := Some logEntries |} in
  let failed error :=
    {| UseUpdatesEvent.type := ERROR;
       UseUpdatesEvent.error := Some error;
       UseUpdatesEvent.logEntries := None |} in
  let settle (r : Completion unit * World) : Settlement unit * World :=
    match r with
    | (Normal _, w') => (Fulfilled tt, w')
    | (Throw e, w') => (Rejected e, w')
    end in
  exists chain : Promise unit,
    readLogEntries_with emit native maxAge w
      = (Normal chain,
         {| nativeCalls := nativeCalls w ++ [ReadLogEntriesAsync age];
            published := published w |}) /\
    (forall w' error,
       readLogEntriesAsync_settles native age = Rejected error ->
       chain w' = settle (emit (failed error) w')) /\
    (forall w' logEntries w2,
       readLogEntriesAsync_settles native age = Fulfilled logEntries ->
       emit (complete logEntries) w' = (Normal tt, w2) ->
       chain w' = (Fulfilled tt, w2)) /\
    (forall w' logEntries e w2,
       readLogEntriesAsync_settles native age = Fulfilled logEntries ->
       emit (complete logEntries) w' = (Throw e, w2) ->
       chain w' = settle (emit (failed e) w2)).
Proof.
  intros age complete failed settle.
  eexists; split; [| split; [| split]].
  - unfold readLogEntries_with, Updates_readLogEntriesAsync, bind, callNative,
      ret; cbn.
    fold age; reflexivity.
  - intros w' error Hsettles.
    unfold promise_catch, promise_then, settled; rewrite Hsettles.
    subst settle failed; cbn.
    destruct (emit _ w') as [[[] | e'] w2]; reflexivity.
  - intros w' logEntries w2 Hsettles Hemit.
    unfold promise_catch, promise_then, settled; rewrite Hsettles.
    subst complete; cbn in Hemit |- *.
    rewrite Hemit; reflexivity.
  - intros w' logEntries e w2 Hsettles Hemit.
    unfold promise_catch, promise_then, settled; rewrite Hsettles.
    subst complete settle failed; cbn in Hemit |- *.
    rewrite Hemit.
    destruct (emit _ w2) as [[[] | e'] w3]; reflexivity.
Qed.

(** X4 with a publisher that throws: a successful read ends with the
    completion notification and an [ERROR] notification both published, and
    the chain rejected by the second throw. *)
Lemma readLogEntries_with_any_publisher_witness :
  exists chain : Promise unit,
    fst (readLogEntries_with throwingPublisher fulfillingNative None emptyWorld)
      = Normal chain /\
    chain emptyWorld
      = (Rejected mockError,
         {| nativeCalls := [];
            published :=
              [ readLogEntriesCompleteEvent;
                {| UseUpdatesEvent.type := ERROR;
                   UseUpdatesEvent.error := Some mockError;
                   UseUpdatesEvent.logEntries := None |} ] |}).
Proof.
  destruct (readLogEntries_with_any_publisher throwingPublisher
              fulfillingNative None emptyWorld)
    as (chain & Hcall & _ & _ & Hthrow).
  exists chain; split.
  - rewrite Hcall; reflexivity.
  - rewrite (Hthrow emptyWorld threeLogEntries mockError
               {| nativeCalls := [];
                  published := [readLogEntriesCompleteEvent] |});
      reflexivity.
Defined.

(** * Further properties of the hook orchestrator *)

Section OrchestratorFurther.

Variable parseDate : string -> Date.

Lemma Object_is_refl {A} (o : Obj A) : Object_is o o = true.
Proof. apply Nat.eqb_refl. Qed.

(** What a delivery keeps: the flags and the native calls; and what it
    leaves in [localState]. *)
Lemma setLocalState_keeps
    (now : Z) (c : Obj Context.t) (h : UseUpdates) :
  mounted (setLocalState parseDate now c h) = mounted h /\
  stateChangeSubscribed (setLocalState parseDate now c h)
    = stateChangeSubscribed h /\
  internalEventsSubscribed (setLocalState parseDate now c h)
    = internalEventsSubscribed h /\
  issued (setLocalState parseDate now c h) = issued h /\
  Object_is (localState (setLocalState parseDate now c h)) c = true /\
  (Object_is (localState h) c = false ->
   localState (setLocalState parseDate now c h) = c).
Proof.
  unfold setLocalState.
  destruct (Object_is (localState h) c) eqn:Hsame.
  - repeat split; try assumption. discriminate.
  - unfold reduceEffect, depsChanged; cbn. rewrite Hsame; cbn.
    repeat split. apply Object_is_refl.
Qed.

Lemma setLocalState_twice
    (now1 now2 : Z) (c : Obj Context.t) (h : UseUpdates) :
  setLocalState parseDate now2 c (setLocalState parseDate now1 c h)
  = setLocalState parseDate now1 c h.
Proof.
  destruct (setLocalState_keeps now1 c h) as (_ & _ & _ & _ & Hsame & _).
  unfold setLocalState at 1.
  rewrite Hsame; reflexivity.
Qed.

(** While the hook lives it listens to state changes, and it stops when it
    is unmounted. *)
Lemma step_keeps_subscription
    (now : Z) (ev : HookEvent) (h : UseUpdates) :
  stateChangeSubscribed h = mounted h ->
  stateChangeSubscribed (step parseDate now ev h)
  = mounted (step parseDate now ev h).
Proof.
  intros Hinv; unfold step.
  destruct (mounted h) eqn:Hm; cbn; [| congruence].
  rewrite Hinv.
  destruct ev as [c | c | event |]; cbn.
  - destruct (setLocalState_keeps now c h) as (-> & -> & _). congruence.
  - destruct (setLocalState_keeps now c h) as (-> & -> & _). congruence.
  - destruct (internalEventsSubscribed h); cbn; congruence.
  - reflexivity.
Qed.

Lemma run_keeps_subscription
    (trace : list (Z * HookEvent)) (h : UseUpdates) :
  stateChangeSubscribed h = mounted h ->
  stateChangeSubscribed (run parseDate trace h)
  = mounted (run parseDate trace h).
Proof.
  revert h; induction trace as [| [now ev] rest IH]; intros h Hinv; cbn.
  - exact Hinv.
  - apply IH, step_keeps_subscription, Hinv.
Qed.

(** The fetched context and a state change are handled alike. *)
Lemma step_delivery (now : Z) (c : Obj Context.t) (h : UseUpdates) :
  stateChangeSubscribed h = mounted h ->
  step parseDate now (FetchResolved c) h
    = (if mounted h then setLocalState parseDate now c h else h) /\
  step parseDate now (StateChange c) h
    = (if mounted h then setLocalState parseDate now c h else h).
Proof.
  intros Hinv; unfold step; rewrite Hinv.
  destruct (mounted h); cbn; split; reflexivity.
Qed.

(** X5. Handing the hook the context object that it already holds changes
    nothing: at any point of its life, whether the object comes from the
    fetch or from a state change, a second delivery of the same object causes
    no reduction and no new time stamp, at whatever time it arrives. *)
Theorem step_same_object_again
    (defaultAddr : nat) (now0 : Z) (trace : list (Z * HookEvent))
    (now1 now2 : Z) (c : Obj Context.t) :
  let h := run parseDate trace (mount parseDate defaultAddr now0) in
  step parseDate now2 (StateChange c) (step parseDate now1 (StateChange c) h)
    = step parseDate now1 (StateChange c) h /\
  step parseDate now2 (FetchResolved c)
      (step parseDate now1 (FetchResolved c) h)
    = step parseDate now1 (FetchResolved c) h /\
  step parseDate now2 (StateChange c) (step parseDate now1 (FetchResolved c) h)
    = step parseDate now1 (FetchResolved c) h /\
  step parseDate now2 (FetchResolved c)
      (step parseDate now1 (StateChange c) h)
    = step parseDate now1 (StateChange c) h.
Proof.
  intros h.
  assert (Hinv : stateChangeSubscribed h = mounted h)
    by (apply run_keeps_subscription; reflexivity).
  destruct (step_delivery now1 c h Hinv) as [Hfetch Hchange].
  rewrite Hfetch, Hchange.
  assert (Hagain :
            forall ev, ev = FetchResolved c \/ ev = StateChange c ->
            step parseDate now2 ev
              (if mounted h then setLocalState parseDate now1 c h else h)
            = (if mounted h then setLocalState parseDate now1 c h else h)).
  { intros ev Hev.
    destruct (mounted h) eqn:Hm.
    - destruct (setLocalState_keeps now1 c h) as (Hm1 & Hs1 & _).
      assert (Hinv1 : stateChangeSubscribed (setLocalState parseDate now1 c h)
                      = mounted (setLocalState parseDate now1 c h))
        by congruence.
      destruct (step_delivery now2 c _ Hinv1) as [Hf2 Hc2].
      destruct Hev as [-> | ->]; rewrite ?Hf2, ?Hc2, Hm1, Hm;
        apply setLocalState_twice.
    - apply step_unmounted; exact Hm. }
  repeat split; apply Hagain; auto.
Qed.

Lemma step_issued (now : Z) (ev : HookEvent) (h : UseUpdates) :
  issued (step parseDate now ev h) = issued h.
Proof.
  unfold step.
  destruct (mounted h); cbn; [| reflexivity].
  destruct ev as [c | c | event |]; cbn.
  - apply setLocalState_keeps.
  - destruct (stateChangeSubscribed h); [apply setLocalState_keeps |].
    reflexivity.
  - destruct (internalEventsSubscribed h); reflexivity.
  - reflexivity.
Qed.

(** X6. Over its whole life, whatever arrives and in whatever order, the
    hook calls the native module once: the fetch of the current context that
    it makes when it mounts. *)
Theorem useUpdates_one_native_call
    (defaultAddr : nat) (now : Z) (trace : list (Z * HookEvent)) :
  issued (run parseDate trace (mount parseDate defaultAddr now))
  = [GetNativeStateMachineContextAsync].
Proof.
  change [GetNativeStateMachineContextAsync]
    with (issued (mount parseDate defaultAddr now)).
  generalize (mount parseDate defaultAddr now) as h.
  induction trace as [| [t ev] rest IH]; intros h; cbn.
  - reflexivity.
  - rewrite IH. apply step_issued.
Qed.

Lemma run_subscription (trace : list (Z * HookEvent)) :
  forall h : UseUpdates,
    stateChangeSubscribed h = mounted h ->
    stateChangeSubscribed (run parseDate trace h)
    = mounted h
      && negb (existsb
                 (fun e => match snd e with Unmount => true | _ => false end)
                 trace).
Proof.
  induction trace as [| [now ev] rest IH]; intros h Hinv.
  - cbn. rewrite andb_true_r. exact Hinv.
  - cbn [run existsb snd].
    rewrite IH by (apply step_keeps_subscription; exact Hinv).
    unfold step.
    destruct (mounted h) eqn:Hm; cbn [negb]; [| rewrite Hm; reflexivity].
    destruct ev as [c | c | event |]; cbn [orb].
    + destruct (setLocalState_keeps now c h) as (-> & _). rewrite Hm.
      reflexivity.
    + destruct (stateChangeSubscribed h);
        [destruct (setLocalState_keeps now c h) as (-> & _) |];
        rewrite Hm; reflexivity.
    + destruct (internalEventsSubscribed h); cbn; rewrite Hm; reflexivity.
    + reflexivity.
Qed.

(** X7. The hook listens to the state changes of the native module exactly
    until it is unmounted: after any sequence of events without an unmount
    the subscription made by the mount effect is still live, whatever has
    arrived, and after any sequence with an unmount it has been removed. *)
Theorem useUpdates_subscribed_until_unmount
    (defaultAddr : nat) (now : Z) (trace : list (Z * HookEvent)) :
  stateChangeSubscribed
    (run parseDate trace (mount parseDate defaultAddr now))
  = negb (existsb
            (fun e => match snd e with Unmount => true | _ => false end)
            trace).
Proof.
  rewrite run_subscription by reflexivity.
  reflexivity.
Qed.

Lemma addressesIdentify_incl (small large : list (Obj Context.t)) :
  incl small large -> addressesIdentify large -> addressesIdentify small.
Proof.
  intros Hincl Hlarge o1 o2 H1 H2.
  apply Hlarge; apply Hincl; assumption.
Qed.

Lemma run_localState (trace : list (Z * HookEvent)) :
  forall h : UseUpdates,
    mounted h = true ->
    stateChangeSubscribed h = true ->
    addressesIdentify (localState h :: snapshots trace) ->
    localState (run parseDate trace h)
    = last (snapshots trace) (localState h).
Proof.
  induction trace as [| [now ev] rest IH]; intros h Hm Hsub Hheap.
  - reflexivity.
  - assert (Hdelivery :
              forall c, snapshots ((now, ev) :: rest) = c :: snapshots rest ->
              localState (run parseDate rest (setLocalState parseDate now c h))
              = last (c :: snapshots rest) (localState h)).
    { intros c Hsnap. rewrite Hsnap in Hheap. rewrite last_cons.
      destruct (setLocalState_keeps now c h) as (Hm1 & Hs1 & _ & _ & _ & Hnew).
      destruct (Object_is (localState h) c) eqn:Hsame.
      - rewrite setLocalState_same_object by exact Hsame.
        assert (Hc : localState h = c).
        { apply Hheap; [left; reflexivity | right; left; reflexivity |].
          apply Nat.eqb_eq; exact Hsame. }
        rewrite IH; try assumption.
        + rewrite Hc; reflexivity.
        + apply addressesIdentify_incl with (2 := Hheap).
          intros o [<- | Ho]; [left; reflexivity | right; right; exact Ho].
      - rewrite IH.
        + rewrite Hnew by reflexivity; reflexivity.
        + congruence.
        + congruence.
        + rewrite Hnew by reflexivity.
          apply addressesIdentify_incl with (2 := Hheap).
          intros o Ho; right; exact Ho. }
    cbn [run]; unfold step; rewrite Hm; cbn [negb].
    destruct ev as [c | c | event |].
    + apply Hdelivery; reflexivity.
    + rewrite Hsub. apply Hdelivery; reflexivity.
    + cbn [snapshots] in Hheap |- *.
      destruct (internalEventsSubscribed h).
      * apply (IH (setUpdatesState (onInternalEvent event) h)); assumption.
      * apply IH; assumption.
    + rewrite run_unmounted by reflexivity. reflexivity.
Qed.

(** X8. What [useNativeStateMachineContext] returns is the context that
    arrived last: after any sequence of events the hook holds the last
    snapshot delivered while it was mounted, whether it came from the fetch
    or from a state change, and the default context when none has arrived. *)
Theorem useNativeStateMachineContext_returns_latest
    (defaultAddr : nat) (now : Z) (trace : list (Z * HookEvent)) :
  addressesIdentify
    ({| addr := defaultAddr; value := defaultContext |} :: snapshots trace) ->
  localState (run parseDate trace (mount parseDate defaultAddr now))
  = last (snapshots trace) {| addr := defaultAddr; value := defaultContext |}.
Proof.
  intros Hheap.
  apply (run_localState trace (mount parseDate defaultAddr now));
    [reflexivity | reflexivity | exact Hheap].
Qed.

End OrchestratorFurther.

(** X8 on the second scenario of the test suite: the hook ends up holding
    the context that announces the update. *)
Lemma useNativeStateMachineContext_returns_latest_witness :
  localState (run mockParseDate checkTrace (mount mockParseDate 0 0))
  = {| addr := 3; value := updateAvailableContext |}.
Proof.
  apply (@useNativeStateMachineContext_returns_latest mockParseDate 0%nat 0
           checkTrace).
  intros o1 o2 H1 H2 Haddr.
  cbn in H1, H2.
  destruct H1 as [<- | [<- | [<- | [<- | []]]]];
    destruct H2 as [<- | [<- | [<- | [<- | []]]]];
    try reflexivity; discriminate Haddr.
Defined.

(** * From [readLogEntries] to the state of the hook *)

Lemma skipn_length_app {A} (l extra : list A) :
  skipn (length l) (l ++ extra) = extra.
Proof. induction l as [| x rest IH]; [reflexivity | exact IH]. Qed.

(** X9. [readLogEntries] and the listener of [useUpdates] fit together: when
    the notifications that a call publishes are delivered to a mounted hook,
    a successful read leaves its entries in [logEntries] and a failed read
    leaves its error in [error]; every other field of the state stays as it
    was, the reducer is not invoked and the context held is not touched.
    While the read is pending the hook does not change. *)
Theorem readLogEntries_reaches_state
    (parseDate : string -> Date) (native : NativeModule) (maxAge : option Z)
    (w : World) (now : Z) (h : UseUpdates) :
  mounted h = true ->
  internalEventsSubscribed h = true ->
  exists (chain : Promise unit) (w1 : World),
    readLogEntries native maxAge w = (Normal chain, w1) /\
    forall w' : World,
      let h' :=
        fold_left
          (fun h event => step parseDate now (InternalEvent event) h)
          (publishedSince w' (snd (chain w'))) h in
      match
        readLogEntriesAsync_settles native
          (match maxAge with Some m => m | None => 3600000 end)
      with
      | Fulfilled logEntries =>
          updatesState h' = withLogEntries (updatesState h) (Some logEntries)
      | Rejected error =>
          updatesState h' = withError (updatesState h) (Some error)
      | Pending => updatesState h' = updatesState h
      end /\
      reduced h' = reduced h /\
      localState h' = localState h.
Proof.
  intros Hm Hsub.
  do 2 eexists; split.
  - unfold readLogEntries, readLogEntries_with, Updates_readLogEntriesAsync,
      bind, callNative, ret; cbn. reflexivity.
  - intros w'.
    unfold promise_catch, promise_then, settled, emitUseUpdatesEvent,
      publishedSince.
    destruct (readLogEntriesAsync_settles native _) as [l | e |]; cbn;
      rewrite ?skipn_length_app, ?skipn_all; cbn;
      unfold step; rewrite ?Hm, ?Hsub; cbn;
      repeat split.
Qed.

(** X9 on scenario 5: three entries reach the hook that has just mounted. *)
Lemma readLogEntries_reaches_state_witness :
  exists (chain : Promise unit) (w1 : World),
    readLogEntries fulfillingNative None emptyWorld = (Normal chain, w1) /\
    State.logEntries
      (updatesState
         (fold_left
            (fun h event => step mockParseDate 40 (InternalEvent event) h)
            (publishedSince w1 (snd (chain w1)))
            (mount mockParseDate 0 0)))
    = Some threeLogEntries.
Proof.
  destruct (@readLogEntries_reaches_state mockParseDate fulfillingNative None
              emptyWorld 40 (mount mockParseDate 0 0) eq_refl eq_refl)
    as (chain & w1 & Hcall & Hstate).
  exists chain, w1; split; [exact Hcall |].
  destruct (Hstate w1) as (Hlog & _).
  cbn in Hlog. rewrite Hlog. reflexivity.
Defined.

(** * Further properties of [useUpdateEvents] *)

(** X10. A hook that is mounted without a listener never subscribes: no
    listener passed at a later render is ever registered, the emitter stays
    as it was, and unmounting removes nothing. *)
Theorem useUpdateEvents_undefined_never_subscribes
    (ls : list (option FunctionRef)) (e : Emitter) :
  snd (fold_left (fun he l => useUpdateEvents_render l he) ls
         (useUpdateEvents_mount None e)) = e /\
  subscription
    (fst (fold_left (fun he l => useUpdateEvents_render l he) ls
            (useUpdateEvents_mount None e))) = None /\
  listenerRef
    (fst (fold_left (fun he l => useUpdateEvents_render l he) ls
            (useUpdateEvents_mount None e))) = last ls None /\
  useUpdateEvents_unmount
    (fold_left (fun he l => useUpdateEvents_render l he) ls
       (useUpdateEvents_mount None e)) = e.
Proof.
  unfold useUpdateEvents_mount.
  match goal with
  | |- context [fold_left _ ls (?h0, e)] =>
      destruct (useUpdateEvents_renders ls h0 e eq_refl) as (He & Hsub & Href);
      destruct (fold_left (fun he l => useUpdateEvents_render l he) ls (h0, e))
        as [h' e'] eqn:Hfold
  end.
  cbn in He, Hsub, Href |- *; subst e'.
  rewrite Hsub.
  repeat split. exact Href.
Qed.

Lemma filter_keys_below (k : nat) (l : list (nat * FunctionRef)) :
  Forall (fun s => (fst s < k)%nat) l ->
  filter (fun s => negb (Nat.eqb (fst s) k)) l = l.
Proof.
  induction 1 as [| s rest Hs Hrest IH]; cbn.
  - reflexivity.
  - destruct (Nat.eqb_spec (fst s) k) as [Heq | Hne]; cbn.
    + lia.
    + rewrite IH; reflexivity.
Qed.

(** X11. Two hooks on one emitter are independent: when a first hook mounts
    with listener [a], is rendered any number of times, a second hook mounts
    with listener [b], and the first hook unmounts, the emitter holds its
    earlier subscribers and the subscription of the second hook, and a
    publish still invokes [b]. *)
Theorem useUpdateEvents_unmount_keeps_other_hook
    (a b : FunctionRef) (ls : list (option FunctionRef)) (e : Emitter) :
  keysBelowNext e ->
  subscribers
    (useUpdateEvents_unmount
       (fst (fold_left (fun he l => useUpdateEvents_render l he) ls
               (useUpdateEvents_mount (Some a) e)),
        snd (useUpdateEvents_mount (Some b)
               (snd (fold_left (fun he l => useUpdateEvents_render l he) ls
                       (useUpdateEvents_mount (Some a) e))))))
  = subscribers e ++ [(S (nextKey e), b)] /\
  invoked
    (useUpdateEvents_unmount
       (fst (fold_left (fun he l => useUpdateEvents_render l he) ls
               (useUpdateEvents_mount (Some a) e)),
        snd (useUpdateEvents_mount (Some b)
               (snd (fold_left (fun he l => useUpdateEvents_render l he) ls
                       (useUpdateEvents_mount (Some a) e))))))
  = invoked e ++ [b].
Proof.
  intros Hkeys.
  change (useUpdateEvents_mount (Some a) e)
    with ({| listenerRef := Some a;
             renderedListener := Some a;
             subscription := Some (nextKey e) |},
          {| nextKey := S (nextKey e);
             subscribers := subscribers e ++ [(nextKey e, a)] |}).
  match goal with
  | |- context [fold_left _ ls (?h0, ?e0)] =>
      destruct (useUpdateEvents_renders ls h0 e0 eq_refl)
        as (He & Hsub & _);
      destruct (fold_left (fun he l => useUpdateEvents_render l he) ls (h0, e0))
        as [h' e'] eqn:Hfold
  end.
  cbn in He, Hsub; subst e'.
  assert (Hother : Nat.eqb (S (nextKey e)) (nextKey e) = false)
    by (apply Nat.eqb_neq; lia).
  unfold useUpdateEvents_mount, addListener, useUpdateEvents_unmount, invoked;
    cbn -[Nat.eqb].
  rewrite Hsub; cbn -[Nat.eqb].
  rewrite !filter_app; cbn -[Nat.eqb].
  rewrite Nat.eqb_refl, Hother; cbn -[Nat.eqb].
  rewrite filter_keys_below by exact Hkeys.
  rewrite app_nil_r.
  split; [reflexivity |].
  rewrite map_app; reflexivity.
Qed.

(** X11 on an emitter that already has a subscriber: hooks with listeners 7
    and 8 mount, the first is rendered again with listener 9 and unmounts. *)
Lemma useUpdateEvents_unmount_keeps_other_hook_witness :
  keysBelowNext busyEmitter /\
  invoked
    (useUpdateEvents_unmount
       (fst (fold_left (fun he l => useUpdateEvents_render l he) [Some 9%nat]
               (useUpdateEvents_mount (Some 7%nat) busyEmitter)),
        snd (useUpdateEvents_mount (Some 8%nat)
               (snd (fold_left (fun he l => useUpdateEvents_render l he)
                       [Some 9%nat]
                       (useUpdateEvents_mount (Some 7%nat) busyEmitter))))))
  = [5%nat; 8%nat].
Proof.
  assert (Hkeys : keysBelowNext busyEmitter).
  { constructor; [cbn; lia | constructor]. }
  split; [exact Hkeys |].
  exact (proj2 (@useUpdateEvents_unmount_keeps_other_hook
                  7%nat 8%nat [Some 9%nat] busyEmitter Hkeys)).
Defined.
